(** * smooth::feedback::PID — a PID controller on Lie groups

    Shallow embedding of [include/smooth/feedback/pid.hpp].

    The controller is a class template [PID<T, G>] over a chrono-like time
    type [T] and a Lie group [G]; its tangent vectors are fixed-size Eigen
    column vectors of [double].  The template parameters and the Eigen
    coefficient type are kept abstract here, as type classes that list exactly
    the operations the header calls.  Most results hold for any coefficient
    arithmetic.  Results that depend on how [double] compares, multiplies by
    zero or adds a zero are proved for binary64 itself, through the kernel's
    primitive floats and their specification, with the Lie group and the
    time type still arbitrary.  The laws of exact arithmetic live in a
    separate class and serve only where stated. *)

From Stdlib Require Import Ring Floats Uint63.
From stdpp Require Import base list numbers.

(** ** Coefficients ([double] in the source) *)

Class Scalar (R : Type) := {
  s0 : R;
  s1 : R;
  sadd : R → R → R;
  ssub : R → R → R;
  smul : R → R → R;
  sopp : R → R;
  sltb : R → R → bool;   (* operator< *)
}.

Section scalar_ops.
Context {R : Type} `{Scalar R}.

(** [std::max(a, b)]: [(a < b) ? b : a]. *)
Definition smax (a b : R) : R := if sltb a b then b else a.

(** [std::min(a, b)]: [(b < a) ? b : a]. *)
Definition smin (a b : R) : R := if sltb b a then b else a.

(** [std::abs]. *)
Definition sabs (a : R) : R := if sltb a s0 then sopp a else a.

(** [a <= b], read as "not [b < a]". *)
Definition sle (a b : R) : Prop := sltb b a = false.

(** The integer [n] as a coefficient. *)
Fixpoint of_nat (n : nat) : R :=
  match n with
  | O => s0
  | S k => sadd (of_nat k) s1
  end.
End scalar_ops.

(** ** Tangent vectors ([G::Tangent], an Eigen column vector)

    A vector is the list of its coefficients; every operation below is the
    coefficient-wise Eigen operation of the same name. *)

Section eigen.
Context {R : Type} `{Scalar R}.

Definition Constant (n : nat) (c : R) : list R := replicate n c.
Definition vadd (a b : list R) : list R := zip_with sadd a b.
Definition vsub (a b : list R) : list R := zip_with ssub a b.
Definition scale (k : R) (a : list R) : list R := smul k <$> a.
Definition cwiseProduct (a b : list R) : list R := zip_with smul a b.
Definition cwiseMax (a : list R) (c : R) : list R := (λ x, smax x c) <$> a.
Definition cwiseMin (a : list R) (c : R) : list R := (λ x, smin x c) <$> a.
End eigen.

(** ** The template parameters *)

(** [LieGroup G]: the part of the concept that the controller uses. *)
Class LieGroup (R G : Type) := {
  Dof : nat;
  Identity : G;
  rminus : G → G → list R;   (* operator-(G, G), a tangent vector *)
}.

(** [T]: a [std::chrono::duration]-like type.  [seconds d] stands for
    [duration_cast<duration<double>>(d).count()]. *)
Class Chrono (R T : Type) := {
  tgt : T → T → bool;        (* operator> *)
  tsub : T → T → T;          (* operator- *)
  seconds : T → R;
}.

(** [smooth::Curve<G>]: [curve_eval c t] returns the position together with
    the two output arguments (velocity, acceleration) of [c.eval]. *)
Class SmoothCurve (R G Curve : Type) := {
  curve_eval : Curve → R → G * list R * list R;
}.

(** ** The controller *)

Section pid.
Context {R G T Curve : Type}.
Context `{Scalar R} `{LieGroup R G} `{Chrono R T} `{SmoothCurve R G Curve}.

Definition Tangent : Type := list R.
Definition Zero : Tangent := Constant Dof s0.
Definition Ones : Tangent := Constant Dof s1.
Definition setConstant (c : R) : Tangent := Constant Dof c.

Record PIDParams := { windup_limit : R }.

Definition TrajectoryReturnT : Type := G * Tangent * Tangent.

Record PID := {
  prm_ : PIDParams;
  kd_ : Tangent;
  kp_ : Tangent;
  ki_ : Tangent;
  t_last : option T;
  i_err_ : Tangent;
  x_des_ : T → TrajectoryReturnT;
}.

(** The constructor, with the default member initialisers. *)
Definition PID_new (prm : PIDParams) : PID :=
  {| prm_ := prm;
     kd_ := Ones;
     kp_ := Ones;
     ki_ := Zero;
     t_last := None;
     i_err_ := Zero;
     x_des_ := λ _, (Identity, Zero, Zero) |}.

Definition with_kp (c : PID) (k : Tangent) : PID :=
  {| prm_ := prm_ c; kd_ := kd_ c; kp_ := k; ki_ := ki_ c;
     t_last := t_last c; i_err_ := i_err_ c; x_des_ := x_des_ c |}.
Definition with_kd (c : PID) (k : Tangent) : PID :=
  {| prm_ := prm_ c; kd_ := k; kp_ := kp_ c; ki_ := ki_ c;
     t_last := t_last c; i_err_ := i_err_ c; x_des_ := x_des_ c |}.
Definition with_ki (c : PID) (k : Tangent) : PID :=
  {| prm_ := prm_ c; kd_ := kd_ c; kp_ := kp_ c; ki_ := k;
     t_last := t_last c; i_err_ := i_err_ c; x_des_ := x_des_ c |}.
Definition with_t_last (c : PID) (t : option T) : PID :=
  {| prm_ := prm_ c; kd_ := kd_ c; kp_ := kp_ c; ki_ := ki_ c;
     t_last := t; i_err_ := i_err_ c; x_des_ := x_des_ c |}.
Definition with_i_err (c : PID) (i : Tangent) : PID :=
  {| prm_ := prm_ c; kd_ := kd_ c; kp_ := kp_ c; ki_ := ki_ c;
     t_last := t_last c; i_err_ := i; x_des_ := x_des_ c |}.
Definition with_x_des (c : PID) (f : T → TrajectoryReturnT) : PID :=
  {| prm_ := prm_ c; kd_ := kd_ c; kp_ := kp_ c; ki_ := ki_ c;
     t_last := t_last c; i_err_ := i_err_ c; x_des_ := f |}.

(** [set_kp(double)] and [set_kp(const Eigen::MatrixBase<Derived> &)], and
    the same for the other two gains. *)
Definition set_kp_all (c : PID) (kp : R) : PID := with_kp c (setConstant kp).
Definition set_kp (c : PID) (kp : Tangent) : PID := with_kp c kp.
Definition set_kd_all (c : PID) (kd : R) : PID := with_kd c (setConstant kd).
Definition set_kd (c : PID) (kd : Tangent) : PID := with_kd c kd.
Definition set_ki_all (c : PID) (ki : R) : PID := with_ki c (setConstant ki).
Definition set_ki (c : PID) (ki : Tangent) : PID := with_ki c ki.

Definition reset_integral (c : PID) : PID := with_i_err c Zero.

(** [set_xdes(std::function<TrajectoryReturnT(T)>)], both overloads. *)
Definition set_xdes (c : PID) (f : T → TrajectoryReturnT) : PID :=
  with_x_des c f.

(** [set_xdes(T t0, const smooth::Curve<G> & c)]. *)
Definition set_xdes_curve (c : PID) (t0 : T) (crv : Curve) : PID :=
  set_xdes c (λ t, let t_curve := seconds (tsub t t0) in
                   curve_eval crv t_curve).

(** The clamp of line 186. *)
Definition clamp (i : Tangent) (limit : R) : Tangent :=
  cwiseMin (cwiseMax i (sopp limit)) limit.

(** The guarded update of the integral state, lines 181-187. *)
Definition integrate (c : PID) (t : T) (g_err : Tangent) : PID :=
  match t_last c with
  | Some tl =>
      if tgt t tl then
        let dt := seconds (tsub t tl) in
        let i := vadd (i_err_ c) (scale dt g_err) in
        with_i_err c (clamp i (windup_limit (prm_ c)))
      else c
  | None => c
  end.

(** [operator()(t, g, v)]: the command and the controller afterwards. *)
Definition operator_call (c : PID) (t : T) (g : G) (v : Tangent)
  : Tangent * PID :=
  let '(g_des, v_des, a_des) := x_des_ c t in
  let g_err := rminus g_des g in
  let c1 := integrate c t g_err in
  let c2 := with_t_last c1 (Some t) in
  (vadd (vadd (vadd a_des (cwiseProduct (kp_ c2) g_err))
              (cwiseProduct (kd_ c2) (vsub v_des v)))
        (cwiseProduct (ki_ c2) (i_err_ c2)),
   c2).

(** *** Call sequences *)

Inductive config :=
  | SetKpAll (kp : R)
  | SetKp (kp : Tangent)
  | SetKdAll (kd : R)
  | SetKd (kd : Tangent)
  | SetKiAll (ki : R)
  | SetKi (ki : Tangent)
  | ResetIntegral
  | SetXdesCurve (t0 : T) (crv : Curve)
  | SetXdes (f : T → TrajectoryReturnT).

Inductive command :=
  | Configure (k : config)
  | Evaluate (t : T) (g : G) (v : Tangent).

Definition configure (c : PID) (k : config) : PID :=
  match k with
  | SetKpAll kp => set_kp_all c kp
  | SetKp kp => set_kp c kp
  | SetKdAll kd => set_kd_all c kd
  | SetKd kd => set_kd c kd
  | SetKiAll ki => set_ki_all c ki
  | SetKi ki => set_ki c ki
  | ResetIntegral => reset_integral c
  | SetXdesCurve t0 crv => set_xdes_curve c t0 crv
  | SetXdes f => set_xdes c f
  end.

Definition step (c : PID) (cmd : command) : PID :=
  match cmd with
  | Configure k => configure c k
  | Evaluate t g v => (operator_call c t g v).2
  end.

Definition run (c : PID) (cmds : list command) : PID := foldl step c cmds.
End pid.


Arguments PIDParams : clear implicits.
Arguments PID : clear implicits.
Arguments Tangent : clear implicits.
Arguments TrajectoryReturnT : clear implicits.
Arguments config : clear implicits.
Arguments command : clear implicits.

Infix "⊕" := vadd (at level 50, left associativity).
Infix "⊖" := vsub (at level 50, left associativity).
Infix "⊙" := cwiseProduct (at level 40, left associativity).
Infix "⊛" := scale (at level 40, left associativity).

(** [calls c ts gs vs n]: the controller after the [n] evaluation calls
    [c(ts 0, gs 0, vs 0)], ..., [c(ts (n-1), gs (n-1), vs (n-1))]. *)
Fixpoint calls {R G T : Type} `{Scalar R} `{LieGroup R G} `{Chrono R T}
    (c : PID R G T) (ts : nat → T) (gs : nat → G) (vs : nat → Tangent R)
    (n : nat) : PID R G T :=
  match n with
  | O => c
  | S k => (operator_call (calls c ts gs vs k) (ts k) (gs k) (vs k)).2
  end.

(** [within limit x]: the coefficient [x] lies in [[-limit, limit]]. *)
Definition within {R : Type} `{Scalar R} (limit x : R) : Prop :=
  sle (sopp limit) x ∧ sle x limit.

(** *** Dimensions

    In the source every [G::Tangent] has [Dof] coefficients by its type; for
    lists this is a property, kept by every operation of the controller. *)

Section dimensions.
Context {R G T Curve : Type}.
Context `{Scalar R} `{LieGroup R G} `{Chrono R T} `{SmoothCurve R G Curve}.

(** A limit the clamp of line 186 can work with: it and its negation
    compare as not less than themselves, the negation is not above it, and
    zero lies within. *)
Definition usable_limit (l : R) : Prop :=
  sltb l l = false ∧ sltb (sopp l) (sopp l) = false ∧ sle (sopp l) l ∧
  within l s0.

(** The windup invariant: the parameters are the ones given at
    construction and every coefficient of the integral state lies within
    the limit. *)
Definition limited (prm : PIDParams R) (c : PID R G T) : Prop :=
  prm_ c = prm ∧ Forall (within (windup_limit prm)) (i_err_ c).

(** [dt * g_err] added [n] times to [i], one addition per call. *)
Definition repeated_sum (n : nat) (dt : R) (g_err i : Tangent R) : Tangent R :=
  Nat.iter n (λ acc, acc ⊕ dt ⊛ g_err) i.

Definition wf_tangent (v : Tangent R) : Prop := length v = Dof.

Definition wf_trajectory (f : T → TrajectoryReturnT R G) : Prop :=
  ∀ t, wf_tangent (f t).1.2 ∧ wf_tangent (f t).2.

Definition wf_pid (c : PID R G T) : Prop :=
  wf_tangent (kp_ c) ∧ wf_tangent (kd_ c) ∧ wf_tangent (ki_ c) ∧
  wf_tangent (i_err_ c) ∧ wf_trajectory (x_des_ c).

Definition wf_config (k : config R G T Curve) : Prop :=
  match k with
  | SetKp kp => wf_tangent kp
  | SetKd kd => wf_tangent kd
  | SetKi ki => wf_tangent ki
  | SetXdes f => wf_trajectory f
  | SetXdesCurve _ crv =>
      ∀ s, wf_tangent (curve_eval crv s).1.2 ∧ wf_tangent (curve_eval crv s).2
  | _ => True
  end.

Definition wf_command (cmd : command R G T Curve) : Prop :=
  match cmd with
  | Configure k => wf_config k
  | Evaluate _ _ v => wf_tangent v
  end.
End dimensions.

(** ** Laws of the template parameters *)

(** Exact arithmetic: the coefficients form a commutative ring with a strict
    total order that addition respects. *)
Class ScalarLaws (R : Type) `{Scalar R} : Prop := {
  sadd_0_l x : sadd s0 x = x;
  sadd_comm x y : sadd x y = sadd y x;
  sadd_assoc x y z : sadd x (sadd y z) = sadd (sadd x y) z;
  smul_1_l x : smul s1 x = x;
  smul_comm x y : smul x y = smul y x;
  smul_assoc x y z : smul x (smul y z) = smul (smul x y) z;
  sdistr_l x y z : smul (sadd x y) z = sadd (smul x z) (smul y z);
  ssub_def x y : ssub x y = sadd x (sopp y);
  sopp_def x : sadd x (sopp x) = s0;
  sltb_irrefl x : sltb x x = false;
  sltb_trans x y z : sltb x y = true → sltb y z = true → sltb x z = true;
  sltb_total x y : sltb x y = false → sltb y x = false → x = y;
  sltb_add_r x y z : sltb x y = true → sltb (sadd x z) (sadd y z) = true;
}.

(** The group difference is a tangent vector, of dimension [Dof]. *)
Class LieGroupLaws (R G : Type) `{LieGroup R G} : Prop := {
  rminus_dof a b : length (rminus a b) = Dof;
}.

(** [operator>] of the time type is asymmetric. *)
Class ChronoLaws (R T : Type) `{Chrono R T} : Prop := {
  tgt_asym a b : tgt a b = true → tgt b a = false;
}.

(** ** A concrete instantiation: planar translations, integer seconds

    [G] is the translation group of the plane with integer coordinates,
    [T] counts whole seconds ([std::chrono::seconds]) and the coefficients are
    integers, on which the arithmetic of the source is exact. *)

Module Plane.
#[export] Instance Z_Scalar : Scalar Z :=
  {| s0 := 0%Z; s1 := 1%Z; sadd := Z.add; ssub := Z.sub; smul := Z.mul;
     sopp := Z.opp; sltb := Z.ltb |}.

#[export] Instance plane_LieGroup : LieGroup Z (Z * Z) :=
  {| Dof := 2; Identity := (0, 0)%Z;
     rminus a b := [a.1 - b.1; a.2 - b.2]%Z |}.

#[export] Instance seconds_Chrono : Chrono Z Z :=
  {| tgt := Z.gtb; tsub := Z.sub; seconds := id |}.

(** A straight line [p + s * d], as a curve. *)
#[export] Instance line_SmoothCurve : SmoothCurve Z (Z * Z) ((Z * Z) * (Z * Z)) :=
  {| curve_eval crv s :=
       let '(p, d) := crv in
       ((p.1 + s * d.1, p.2 + s * d.2)%Z, [d.1; d.2], [0; 0]%Z) |}.

Definition pid (limit : Z) : PID Z (Z * Z) Z := PID_new {| windup_limit := limit |}.

(** The plant sits at [(-10, -10)] and the default trajectory asks for the
    origin, so the position error is [[10; 10]] at every call. *)
Definition at_rest : (Z * Z) * Tangent Z := ((-10, -10)%Z, [0; 0]%Z).
End Plane.

(** ** A second instantiation: the real line in binary64

    The coefficients are IEEE 754 [double]s, computed by the kernel; [G] is
    the line itself and [T] counts whole seconds.  The laws of exact
    arithmetic do not hold here; the instance serves to run the controller
    on the numbers the source runs on. *)

Module Double.
#[export] Instance double_Scalar : Scalar float :=
  {| s0 := 0%float; s1 := 1%float; sadd := PrimFloat.add; ssub := PrimFloat.sub;
     smul := PrimFloat.mul; sopp := PrimFloat.opp; sltb := PrimFloat.ltb |}.

#[export] Instance line_LieGroup : LieGroup float float :=
  {| Dof := 1; Identity := 0%float; rminus a b := [PrimFloat.sub a b] |}.

(** The conversion of a tick count to [double]. *)
Definition double_of_Z (z : Z) : float :=
  match z with
  | Z0 => 0%float
  | Zpos _ => PrimFloat.of_uint63 (Uint63.of_Z z)
  | Zneg _ => PrimFloat.opp (PrimFloat.of_uint63 (Uint63.of_Z (Z.opp z)))
  end.

#[export] Instance seconds_Chrono : Chrono float Z :=
  {| tgt := Z.gtb; tsub := Z.sub; seconds := double_of_Z |}.

(** A straight line [p + s * d], as a curve. *)
#[export] Instance line_SmoothCurve : SmoothCurve float float (float * float) :=
  {| curve_eval crv s :=
       (PrimFloat.add crv.1 (PrimFloat.mul s crv.2), [crv.2], [0%float]) |}.

(** Two constants: [0.1] and [1e308], as the doubles nearest to them. *)
Definition tenth : float := 0x1.999999999999ap-4%float.
Definition huge : float := 0x1.1ccf385ebc8ap+1023%float.

(** [PIDParams{}]: the default limit is
    [std::numeric_limits<double>::infinity()]. *)
Definition PIDParams_default : PIDParams float :=
  {| windup_limit := PrimFloat.infinity |}.

Definition pid (prm : PIDParams float) : PID float float Z := PID_new prm.

(** Two doubles agree when they are the same double or compare equal
    ([==]); the second covers two zeros of opposite sign. *)
Definition agree (o a : float) : Prop := o = a ∨ PrimFloat.eqb o a = true.

(** The classification of a double read off its specification. *)
Definition SFis_nan (f : spec_float) : bool :=
  match f with S754_nan => true | _ => false end.

Definition SFis_finite (f : spec_float) : bool :=
  match f with S754_zero _ | S754_finite _ _ _ => true | _ => false end.

Definition SFis_zero (f : spec_float) : bool :=
  match f with S754_zero _ => true | _ => false end.
End Double.

(** ** Reading call sequences *)

Section sequences.
Context {R G T Curve : Type}.

(** The time of the last evaluation call of a sequence, if there is one. *)
Fixpoint last_evaluate (cmds : list (command R G T Curve)) : option T :=
  match cmds with
  | [] => None
  | cmd :: rest =>
      match last_evaluate rest with
      | Some t => Some t
      | None => match cmd with
                | Evaluate t _ _ => Some t
                | Configure _ => None
                end
      end
  end.

(** The six gain setters. *)
Definition is_gain (k : config R G T Curve) : bool :=
  match k with
  | SetKpAll _ | SetKp _ | SetKdAll _ | SetKd _ | SetKiAll _ | SetKi _ => true
  | ResetIntegral | SetXdesCurve _ _ | SetXdes _ => false
  end.

(** A call sequence with its gain-setter calls left out. *)
Fixpoint without_gains (cmds : list (command R G T Curve))
  : list (command R G T Curve) :=
  match cmds with
  | [] => []
  | Configure k :: rest =>
      if is_gain k then without_gains rest else Configure k :: without_gains rest
  | cmd :: rest => cmd :: without_gains rest
  end.
End sequences.

(** The part of a controller that evaluation calls carry from one call to
    the next and that the gains play no part in. *)
Definition same_memory {R G T : Type} (c c' : PID R G T) : Prop :=
  prm_ c = prm_ c' ∧ t_last c = t_last c' ∧ i_err_ c = i_err_ c' ∧
  x_des_ c = x_des_ c'.

(** * Properties of the controller *)

Section pid_facts.
Context {R G T Curve : Type}.
Context `{Scalar R} `{LieGroup R G} `{Chrono R T} `{SmoothCurve R G Curve}.

Implicit Types (c : PID R G T) (t : T) (g : G) (v : Tangent R).

(** *** What one evaluation call leaves behind *)

Lemma integrate_frame c t e :
  prm_ (integrate c t e) = prm_ c ∧ kp_ (integrate c t e) = kp_ c ∧
  kd_ (integrate c t e) = kd_ c ∧ ki_ (integrate c t e) = ki_ c ∧
  t_last (integrate c t e) = t_last c ∧ x_des_ (integrate c t e) = x_des_ c.
Proof.
  unfold integrate. destruct (t_last c) as [tl|] eqn:Htl; [|done].
  destruct (tgt t tl); done.
Qed.

Lemma integrate_skip_i_err c t e :
  t_last c = None ∨ (∃ tl, t_last c = Some tl ∧ tgt t tl = false) →
  i_err_ (integrate c t e) = i_err_ c.
Proof. unfold integrate. by intros [-> | (tl & -> & ->)]. Qed.

Lemma operator_call_state c t g v :
  (operator_call c t g v).2 =
  with_t_last (integrate c t (rminus (x_des_ c t).1.1 g)) (Some t).
Proof. unfold operator_call. by destruct (x_des_ c t) as [[g_des v_des] a_des]. Qed.

Lemma operator_call_frame c t g v :
  let c' := (operator_call c t g v).2 in
  prm_ c' = prm_ c ∧ kp_ c' = kp_ c ∧ kd_ c' = kd_ c ∧ ki_ c' = ki_ c ∧
  x_des_ c' = x_des_ c.
Proof.
  cbn zeta. rewrite operator_call_state. cbn.
  destruct (integrate_frame c t (rminus (x_des_ c t).1.1 g)) as (?&?&?&?&?&?).
  done.
Qed.

Lemma operator_call_i_err c t g v :
  i_err_ (operator_call c t g v).2 =
  i_err_ (integrate c t (rminus (x_des_ c t).1.1 g)).
Proof. by rewrite operator_call_state. Qed.

Lemma operator_call_output c t g v :
  (operator_call c t g v).1 =
  (x_des_ c t).2 ⊕ kp_ c ⊙ rminus (x_des_ c t).1.1 g
                 ⊕ kd_ c ⊙ ((x_des_ c t).1.2 ⊖ v)
                 ⊕ ki_ c ⊙ i_err_ (integrate c t (rminus (x_des_ c t).1.1 g)).
Proof.
  unfold operator_call.
  destruct (x_des_ c t) as [[g_des v_des] a_des]. cbn.
  by destruct (integrate_frame c t (rminus g_des g)) as (_&->&->&->&_).
Qed.

(** C1.  The command returned by [operator()(t, g, v)] is
    [a_des + kp ⊙ g_err + kd ⊙ (v_des - v) + ki ⊙ i_err], where
    [(g_des, v_des, a_des)] is the stored trajectory at [t], [g_err] is the
    group difference [g_des - g], and [i_err] is the integral state as the
    call leaves it. *)
Theorem operator_call_command c t g v :
  let '(g_des, v_des, a_des) := x_des_ c t in
  let g_err := rminus g_des g in
  let i_err := i_err_ (operator_call c t g v).2 in
  (operator_call c t g v).1 =
  a_des ⊕ kp_ c ⊙ g_err ⊕ kd_ c ⊙ (v_des ⊖ v) ⊕ ki_ c ⊙ i_err.
Proof.
  rewrite operator_call_i_err, operator_call_output.
  by destruct (x_des_ c t) as [[g_des v_des] a_des].
Qed.


(** *** Configuration calls *)

Lemma configure_frame c (k : config R G T Curve) :
  prm_ (configure c k) = prm_ c ∧ t_last (configure c k) = t_last c ∧
  (i_err_ (configure c k) = i_err_ c ∨ i_err_ (configure c k) = Zero).
Proof. destruct k; cbn; auto. Qed.

(** A controller that has only been configured since its construction. *)
Lemma configured_fresh (prm : PIDParams R) (cfg : list (config R G T Curve)) :
  let c := foldl configure (PID_new prm) cfg in
  prm_ c = prm ∧ t_last c = None ∧ i_err_ c = Zero.
Proof.
  cbn zeta. induction cfg as [|k cfg IH] using rev_ind; [done|].
  rewrite foldl_app. cbn. destruct IH as (IHp & IHt & IHi).
  destruct (configure_frame (foldl configure (PID_new prm) cfg) k)
    as (-> & -> & [-> | ->]); done.
Qed.

(** C6.  The first evaluation call on a freshly constructed controller
    (configured or not) integrates nothing, whatever the call time: the
    integral state is still zero afterwards, and the controller goes from
    having no previous timestamp to having one. *)
Theorem first_call_no_integration
    (prm : PIDParams R) (cfg : list (config R G T Curve)) t g v :
  let c := foldl configure (PID_new prm) cfg in
  let c' := (operator_call c t g v).2 in
  t_last c = None ∧ i_err_ c = Zero ∧ i_err_ c' = Zero ∧ t_last c' = Some t.
Proof.
  cbn zeta. destruct (configured_fresh prm cfg) as (_ & Ht & Hi).
  rewrite operator_call_i_err, operator_call_state.
  unfold integrate. rewrite Ht. done.
Qed.

(** C7.  [reset_integral()] zeroes the integral state and touches nothing
    else: previous timestamp, gains, windup limit and trajectory stay as
    they were.  A later evaluation call at a time strictly after the
    recorded timestamp integrates over the elapsed interval as usual,
    starting from zero. *)
Theorem reset_integral_frame c :
  let c' := reset_integral c in
  i_err_ c' = Zero ∧
  t_last c' = t_last c ∧ kp_ c' = kp_ c ∧ kd_ c' = kd_ c ∧ ki_ c' = ki_ c ∧
  prm_ c' = prm_ c ∧ x_des_ c' = x_des_ c ∧
  ∀ tl t g v, t_last c = Some tl → tgt t tl = true →
    let g_err := rminus (x_des_ c t).1.1 g in
    let dt := seconds (tsub t tl) in
    i_err_ (operator_call c' t g v).2 =
    clamp (Zero ⊕ dt ⊛ g_err) (windup_limit (prm_ c)).
Proof.
  cbn zeta. repeat split.
  intros tl t g v Htl Hgt. rewrite operator_call_i_err.
  unfold integrate. cbn. by rewrite Htl, Hgt.
Qed.

(** C8.  A controller constructed from parameters has proportional and
    derivative gains all ones, integral gains and integral state all zero,
    no previous timestamp, and a trajectory that returns the identity with
    zero velocity and zero acceleration at every time. *)
Theorem PID_new_state (prm : PIDParams R) :
  let c : PID R G T := PID_new prm in
  prm_ c = prm ∧
  kp_ c = replicate Dof s1 ∧ kd_ c = replicate Dof s1 ∧
  ki_ c = replicate Dof s0 ∧ i_err_ c = replicate Dof s0 ∧
  t_last c = None ∧
  ∀ t, x_des_ c t = (Identity, replicate Dof s0, replicate Dof s0).
Proof. done. Qed.
End pid_facts.

(** ** Exact coefficients *)

Section scalar_facts.
Context {R : Type} `{ScalarLaws R}.

Lemma scalar_ring_theory : ring_theory s0 s1 sadd smul ssub sopp (@eq R).
Proof.
  constructor.
  - apply sadd_0_l.
  - apply sadd_comm.
  - apply sadd_assoc.
  - apply smul_1_l.
  - apply smul_comm.
  - apply smul_assoc.
  - apply sdistr_l.
  - apply ssub_def.
  - apply sopp_def.
Qed.

Add Ring scalar_ring : scalar_ring_theory.

(** Translating both sides of a strict inequality. *)
Lemma sltb_shift (z x y a b : R) :
  sltb x y = true → a = sadd x z → b = sadd y z → sltb a b = true.
Proof. intros Hlt -> ->. by apply sltb_add_r. Qed.

Lemma sltb_asym (x y : R) : sltb x y = true → sltb y x = false.
Proof.
  intros Hxy. destruct (sltb y x) eqn:Hyx; [|done].
  rewrite <- (sltb_irrefl x). symmetry. by apply (sltb_trans x y x).
Qed.

(** [x < y] and [y <= z] give [x < z]. *)
Lemma sltb_le_trans (x y z : R) : sltb x y = true → sle y z → sltb x z = true.
Proof.
  unfold sle. intros Hxy Hzy.
  destruct (sltb y z) eqn:Hyz; [by apply (sltb_trans x y z)|].
  by rewrite (sltb_total z y Hzy Hyz).
Qed.

Lemma opp_limit_le_0 (l : R) : sle s0 l → sle (sopp l) s0.
Proof.
  unfold sle. intros Hl. destruct (sltb s0 (sopp l)) eqn:Hneg; [|done].
  rewrite <- Hl. symmetry.
  apply (sltb_shift l s0 (sopp l)); [done | ring | ring].
Qed.

Lemma opp_limit_le (l : R) : sle s0 l → sle (sopp l) l.
Proof.
  intros Hl. pose proof (opp_limit_le_0 l Hl) as Hneg. unfold sle in *.
  destruct (sltb l (sopp l)) eqn:Hlt; [|done].
  rewrite <- Hl. symmetry. by apply (sltb_le_trans l (sopp l) s0).
Qed.

(** The clamp of one coefficient: [std::min(std::max(x, -l), l)]. *)
Lemma clamp_within (l x : R) : sle (sopp l) l → within l (smin (smax x (sopp l)) l).
Proof.
  unfold within, smin, smax, sle. intros Hl.
  destruct (sltb x (sopp l)) eqn:Hlo.
  - rewrite Hl. by rewrite sltb_irrefl.
  - destruct (sltb l x) eqn:Hhi; [by rewrite sltb_irrefl | done].
Qed.

Lemma clamp_id (l x : R) : within l x → smin (smax x (sopp l)) l = x.
Proof. unfold within, smin, smax, sle. by intros [-> ->]. Qed.

End scalar_facts.

(** ** Tangent vectors over exact coefficients *)

Section tangent_facts.
Context {R : Type} `{ScalarLaws R}.

Add Ring scalar_ring_tangent : (scalar_ring_theory (R := R)).

Implicit Types (a b e i : list R) (k l : R).

Lemma length_vadd a b : length (a ⊕ b) = length a `min` length b.
Proof. apply length_zip_with. Qed.

Lemma length_scale k a : length (k ⊛ a) = length a.
Proof. apply length_fmap. Qed.

Lemma length_cwiseMax a k : length (cwiseMax a k) = length a.
Proof. apply length_fmap. Qed.

Lemma length_cwiseMin a k : length (cwiseMin a k) = length a.
Proof. apply length_fmap. Qed.

Lemma clamp_coefficients i l :
  cwiseMin (cwiseMax i (sopp l)) l = (λ x, smin (smax x (sopp l)) l) <$> i.
Proof. unfold cwiseMin, cwiseMax. by rewrite <- list_fmap_compose. Qed.

Lemma Forall_clamp_within i l :
  sle (sopp l) l → Forall (within l) (cwiseMin (cwiseMax i (sopp l)) l).
Proof.
  intros Hl. rewrite clamp_coefficients. apply Forall_fmap, Forall_true.
  intros x. by apply clamp_within.
Qed.

Lemma clamp_within_id i l :
  Forall (within l) i → cwiseMin (cwiseMax i (sopp l)) l = i.
Proof.
  intros Hi. rewrite clamp_coefficients.
  induction Hi as [|x i Hx _ IH]; [done|].
  cbn. by rewrite IH, clamp_id.
Qed.

Lemma scale_0_l k e : smul s0 k ⊛ e = replicate (length e) s0.
Proof.
  induction e as [|x e IH]; [done|].
  cbn. unfold scale in IH. rewrite IH. f_equal. ring.
Qed.

Lemma vadd_scale k l e : k ⊛ e ⊕ l ⊛ e = sadd k l ⊛ e.
Proof.
  induction e as [|x e IH]; [done|].
  cbn. unfold vadd, scale in IH. rewrite IH. f_equal. ring.
Qed.
End tangent_facts.

(** ** The windup limit *)

Section windup.
Context {R G T Curve : Type}.
Context `{ScalarLaws R} `{LieGroup R G} `{Chrono R T} `{SmoothCurve R G Curve}.

Implicit Types (c : PID R G T) (t : T) (g : G) (v : Tangent R).

(** With a limit that is not negative, an accumulating call leaves every
    coefficient within the limits, whatever the integral state was. *)
Lemma integrate_within c t e tl :
  sle s0 (windup_limit (prm_ c)) → t_last c = Some tl → tgt t tl = true →
  Forall (within (windup_limit (prm_ c))) (i_err_ (integrate c t e)).
Proof.
  intros Hl Htl Hgt. unfold integrate. rewrite Htl, Hgt. cbn.
  by apply Forall_clamp_within, opp_limit_le.
Qed.

End windup.

(** ** Timestamps, accumulation and feedforward *)

Section pid_laws.
Context {R G T Curve : Type}.
Context `{ScalarLaws R} `{LieGroup R G} `{Chrono R T} `{SmoothCurve R G Curve}.
Context `{!LieGroupLaws R G} `{!ChronoLaws R T}.

Add Ring scalar_ring_pid : (scalar_ring_theory (R := R)).

Implicit Types (c : PID R G T) (t : T) (g : G) (v : Tangent R).

(** C4.  Every evaluation call records its time as the previous
    timestamp, also when it did not integrate.  In particular, a call at
    [t1] followed by a call at an earlier [t0] leaves the integral state of
    the first call untouched and [t0] as the previous timestamp. *)
Theorem operator_call_records_time :
  (∀ c t g v, t_last (operator_call c t g v).2 = Some t) ∧
  (∀ c t1 g1 v1 t0 g0 v0,
     tgt t1 t0 = true →
     let c1 := (operator_call c t1 g1 v1).2 in
     let c2 := (operator_call c1 t0 g0 v0).2 in
     i_err_ c2 = i_err_ c1 ∧ t_last c2 = Some t0).
Proof.
  split.
  - intros c t g v. by rewrite operator_call_state.
  - intros c t1 g1 v1 t0 g0 v0 Hlt. cbn zeta. split.
    + rewrite (operator_call_i_err (operator_call c t1 g1 v1).2).
      apply integrate_skip_i_err. right. exists t1.
      split; [by rewrite operator_call_state | by apply tgt_asym].
    + by rewrite operator_call_state.
Qed.

(** *** Dimensions are kept *)

Lemma wf_new (prm : PIDParams R) : wf_pid (PID_new (T := T) prm).
Proof.
  unfold wf_pid, wf_trajectory, wf_tangent. cbn.
  unfold Ones, Zero, Constant. by rewrite !length_replicate.
Qed.

Lemma wf_integrate c t e :
  wf_tangent e → wf_tangent (i_err_ c) → wf_tangent (i_err_ (integrate c t e)).
Proof.
  unfold wf_tangent, integrate. intros He Hi.
  destruct (t_last c) as [tl|]; [|done].
  destruct (tgt t tl); [|done].
  cbn. unfold clamp.
  rewrite length_cwiseMin, length_cwiseMax, length_vadd, length_scale. lia.
Qed.

Lemma wf_configure c (k : config R G T Curve) :
  wf_pid c → wf_config k → wf_pid (configure c k).
Proof.
  unfold wf_pid, wf_tangent. intros (Hp & Hd & Hi & He & Hx) Hk.
  destruct k; cbn in *; unfold wf_trajectory, setConstant, Zero, Constant;
    rewrite ?length_replicate; repeat split; try done;
    first [apply Hx | apply Hk].
Qed.

Lemma wf_step c (cmd : command R G T Curve) :
  wf_pid c → wf_command cmd → wf_pid (step c cmd).
Proof.
  intros Hc Hcmd. destruct cmd as [k|t g v]; [by apply wf_configure|].
  destruct Hc as (Hp & Hd & Hi & He & Hx). cbn. unfold wf_pid.
  destruct (operator_call_frame c t g v) as (_ & -> & -> & -> & ->).
  rewrite operator_call_i_err. repeat split; try done; try apply Hx.
  apply wf_integrate; [apply rminus_dof | done].
Qed.

Lemma wf_run (cmds : list (command R G T Curve)) c :
  wf_pid c → Forall wf_command cmds → wf_pid (run c cmds).
Proof.
  revert c. induction cmds as [|cmd cmds IH]; intros c Hc Hcmds; [done|].
  inversion Hcmds; subst. cbn. by apply IH; [apply wf_step|].
Qed.

End pid_laws.

(** * The planar instance *)

Module PlaneFacts.
Import Plane.
Local Open Scope Z_scope.

#[export] Instance Z_ScalarLaws : ScalarLaws Z.
Proof.
  split; cbn; intros.
  - lia.
  - lia.
  - lia.
  - lia.
  - lia.
  - lia.
  - lia.
  - lia.
  - lia.
  - apply Z.ltb_irrefl.
  - apply Z.ltb_lt. apply Z.ltb_lt in H, H0. lia.
  - apply Z.ltb_ge in H, H0. lia.
  - apply Z.ltb_lt. apply Z.ltb_lt in H. lia.
Qed.

#[export] Instance plane_LieGroupLaws : LieGroupLaws Z (Z * Z).
Proof. split. done. Qed.

#[export] Instance seconds_ChronoLaws : ChronoLaws Z Z.
Proof. split. cbn. intros a b Hab. lia. Qed.

(** The scenario of three calls one second apart with limit 5 and integral
    gain 2: nothing is accumulated at the first call, the second saturates
    at the limit, the third stays there. *)
Example saturation_scenario :
  let c := set_ki_all (pid 5) 2 in
  let r0 := operator_call c 0%Z at_rest.1 at_rest.2 in
  let r1 := operator_call r0.2 1%Z at_rest.1 at_rest.2 in
  let r2 := operator_call r1.2 2%Z at_rest.1 at_rest.2 in
  i_err_ r0.2 = [0; 0]%Z ∧ i_err_ r1.2 = [5; 5]%Z ∧ i_err_ r2.2 = [5; 5]%Z ∧
  r0.1 = [10; 10]%Z ∧ r1.1 = [20; 20]%Z ∧ r2.1 = [20; 20]%Z.
Proof. vm_compute. done. Qed.

(** One call per second. *)
Lemma every_second_later (k : nat) : tgt (Z.of_nat (S k)) (Z.of_nat k) = true.
Proof. apply Z.gtb_lt. lia. Qed.

Lemma every_second_elapsed (k : nat) :
  seconds (tsub (Z.of_nat (S k)) (Z.of_nat k)) = 1.
Proof. unfold seconds, tsub, seconds_Chrono, id. lia. Qed.

(** Counterexample to C3 as stated, with a negative limit: after the first call the
    integral state is still zero, whose magnitude exceeds [-1]. *)
Lemma integral_magnitude_negative_limit :
  ¬ Forall (λ x, sle (sabs x) (-1)%Z)
      (i_err_ (operator_call (run (pid (-1)) []) 0%Z (0, 0)%Z [0; 0]%Z).2).
Proof. vm_compute. intros Hall. by inversion Hall. Qed.

Lemma operator_call_records_time_witness :
  let c1 := (operator_call (pid 5) 5%Z at_rest.1 at_rest.2).2 in
  let c2 := (operator_call c1 3%Z at_rest.1 at_rest.2).2 in
  i_err_ c2 = i_err_ c1 ∧ t_last c2 = Some 3%Z.
Proof.
  apply (proj2 (operator_call_records_time (R := Z) (G := Z * Z) (T := Z))).
  reflexivity.
Defined.

(** Counterexample to C5 as stated, already for one call: the integral state is zero,
    not [1 * dt * g_err]. *)
Lemma integral_linear_off_by_one :
  let c0 := pid 100 in
  let ts := λ k : nat, Z.of_nat k in
  let gs := λ _ : nat, at_rest.1 in
  let vs := λ _ : nat, at_rest.2 in
  (∀ k, tgt (ts (S k)) (ts k) = true) ∧
  (∀ k, seconds (tsub (ts (S k)) (ts k)) = 1%Z) ∧
  (∀ k, rminus (x_des_ c0 (ts k)).1.1 (gs k) = [10; 10]%Z) ∧
  i_err_ (calls c0 ts gs vs 1) = [0; 0]%Z ∧
  i_err_ (calls c0 ts gs vs 1) ≠ smul (of_nat 1) 1%Z ⊛ [10; 10]%Z.
Proof.
  cbn zeta. repeat split.
  - apply every_second_later.
  - apply every_second_elapsed.
  - discriminate.
Qed.

End PlaneFacts.

(** * The binary64 instance *)

Module DoubleFacts.
Import Double.
Local Open Scope float_scope.

(** The saturation scenario on doubles: limit 5, integral gain 2, position
    error 10, one call per second. *)
Example saturation_scenario_double :
  let c := set_ki_all (pid {| windup_limit := 5 |}) 2 in
  let r0 := operator_call c 0%Z (-10) [0] in
  let r1 := operator_call r0.2 1%Z (-10) [0] in
  let r2 := operator_call r1.2 2%Z (-10) [0] in
  i_err_ r0.2 = [0] ∧ i_err_ r1.2 = [5] ∧ i_err_ r2.2 = [5] ∧
  r0.1 = [10] ∧ r1.1 = [20] ∧ r2.1 = [20].
Proof. vm_compute. done. Qed.

(** With the default parameters nothing is clamped. *)
Example default_limit_double :
  let c := set_ki_all (pid PIDParams_default) 2 in
  let r0 := operator_call c 0%Z (-10) [0] in
  let r1 := operator_call r0.2 1%Z (-10) [0] in
  let r2 := operator_call r1.2 3%Z (-10) [0] in
  i_err_ r0.2 = [0] ∧ i_err_ r1.2 = [10] ∧ i_err_ r2.2 = [30] ∧ r2.1 = [70].
Proof. vm_compute. done. Qed.

(** A negative limit: the first accumulating call leaves the limit itself. *)
Example negative_limit_double :
  let c := pid {| windup_limit := -1 |} in
  let r0 := operator_call c 0%Z (-10) [0] in
  let r1 := operator_call r0.2 1%Z (-10) [0] in
  i_err_ r0.2 = [0] ∧ i_err_ r1.2 = [-1].
Proof. vm_compute. done. Qed.
End DoubleFacts.

(** * Call sequences *)

Section sequence_facts.
Context {R G T Curve : Type}.
Context `{Scalar R} `{LieGroup R G} `{Chrono R T} `{SmoothCurve R G Curve}.

Implicit Types (c : PID R G T) (t : T) (g : G) (v : Tangent R).
Implicit Types (cmd : command R G T Curve) (cmds : list (command R G T Curve)).

Lemma step_prm c cmd : prm_ (step c cmd) = prm_ c.
Proof.
  destruct cmd as [k|t g v]; [by destruct k|].
  cbn. by destruct (operator_call_frame c t g v) as (-> & _).
Qed.

Lemma step_t_last c cmd :
  t_last (step c cmd) =
  match cmd with Evaluate t _ _ => Some t | Configure _ => t_last c end.
Proof.
  destruct cmd as [k|t g v]; [by destruct k|].
  cbn. by rewrite operator_call_state.
Qed.

(** X1.  After any sequence of calls the previous timestamp is the time of
    the last evaluation call of the sequence; a sequence without evaluation
    calls leaves it as it was.  No call ever clears it. *)
Theorem run_t_last cmds c :
  t_last (run c cmds) =
  match last_evaluate cmds with
  | Some t => Some t
  | None => t_last c
  end.
Proof.
  revert c. induction cmds as [|cmd cmds IH]; intros c; [done|].
  change (run c (cmd :: cmds)) with (run (step c cmd) cmds).
  rewrite IH. cbn [last_evaluate].
  destruct (last_evaluate cmds) as [t'|]; [done|].
  rewrite step_t_last. by destruct cmd.
Qed.

Lemma run_prm cmds c : prm_ (run c cmds) = prm_ c.
Proof.
  revert c. induction cmds as [|cmd cmds IH]; intros c; [done|].
  change (run c (cmd :: cmds)) with (run (step c cmd) cmds).
  by rewrite IH, step_prm.
Qed.

Lemma calls_keep c ts gs vs n :
  prm_ (calls c ts gs vs n) = prm_ c ∧ kp_ (calls c ts gs vs n) = kp_ c ∧
  kd_ (calls c ts gs vs n) = kd_ c ∧ ki_ (calls c ts gs vs n) = ki_ c ∧
  x_des_ (calls c ts gs vs n) = x_des_ c.
Proof.
  induction n as [|n (IHp & IHkp & IHkd & IHki & IHx)]; [done|].
  cbn [calls].
  destruct (operator_call_frame (calls c ts gs vs n) (ts n) (gs n) (vs n))
    as (-> & -> & -> & -> & ->).
  done.
Qed.

(** X2.  No sequence of calls changes the parameters given at construction,
    and evaluation calls change neither the gains nor the trajectory. *)
Theorem calls_frame cmds c ts gs vs n :
  prm_ (run c cmds) = prm_ c ∧
  let cn := calls c ts gs vs n in
  prm_ cn = prm_ c ∧ kp_ cn = kp_ c ∧ kd_ cn = kd_ c ∧ ki_ cn = ki_ c ∧
  x_des_ cn = x_des_ c.
Proof. split; [apply run_prm | apply calls_keep]. Qed.

(** *** The gains play no part in the integral state *)

Lemma same_memory_refl c : same_memory c c.
Proof. done. Qed.

Lemma same_memory_integrate c c' t e :
  same_memory c c' → same_memory (integrate c t e) (integrate c' t e).
Proof.
  intros Hs. pose proof Hs as (Hp & Ht & Hi & Hx).
  unfold integrate. rewrite <- Ht.
  destruct (t_last c) as [tl|]; [|done].
  destruct (tgt t tl); [|done].
  unfold same_memory. cbn. rewrite Hp, Hi.
  repeat split; first [done | apply Hs].
Qed.

Lemma same_memory_step c c' cmd :
  same_memory c c' → same_memory (step c cmd) (step c' cmd).
Proof.
  intros Hs. destruct cmd as [k|t g v].
  - destruct Hs as (Hp & Ht & Hi & Hx). by destruct k.
  - cbn. rewrite !operator_call_state.
    assert (x_des_ c = x_des_ c') as Hx by apply Hs. rewrite Hx.
    destruct (same_memory_integrate c c' t (rminus (x_des_ c' t).1.1 g) Hs)
      as (Hp' & _ & Hi' & Hx').
    done.
Qed.

Lemma same_memory_gain c c' (k : config R G T Curve) :
  is_gain k = true → same_memory c c' → same_memory (configure c k) c'.
Proof. intros Hk (Hp & Ht & Hi & Hx). by destruct k. Qed.

Lemma same_memory_without_gains cmds c c' :
  same_memory c c' → same_memory (run c cmds) (run c' (without_gains cmds)).
Proof.
  revert c c'. induction cmds as [|cmd cmds IH]; intros c c' Hs; [done|].
  change (run c (cmd :: cmds)) with (run (step c cmd) cmds).
  destruct cmd as [k|t g v]; cbn [without_gains].
  - destruct (is_gain k) eqn:Hk.
    + by apply IH, same_memory_gain.
    + apply IH. by apply (same_memory_step c c' (Configure k)).
  - apply IH. by apply (same_memory_step c c' (Evaluate t g v)).
Qed.

(** X3.  The gains play no part in what the controller remembers: leaving
    every gain-setter call out of a call sequence gives the same integral
    state, the same previous timestamp, the same trajectory and the same
    parameters. *)
Theorem gains_do_not_affect_integral cmds c :
  let c1 := run c cmds in
  let c2 := run c (without_gains cmds) in
  i_err_ c1 = i_err_ c2 ∧ t_last c1 = t_last c2 ∧ x_des_ c1 = x_des_ c2 ∧
  prm_ c1 = prm_ c2.
Proof.
  cbn zeta.
  destruct (same_memory_without_gains cmds c c (same_memory_refl c))
    as (Hp & Ht & Hi & Hx).
  done.
Qed.

(** X4.  With a curve as trajectory, set with initial time [t0], an
    evaluation call at [t] steers towards the curve at [t - t0] seconds:
    the command is [acc + kp ⊙ (pos - g) + kd ⊙ (vel - v) + ki ⊙ i_err] for
    the position, velocity and acceleration the curve reports there; setting
    the curve changes nothing but the trajectory. *)
Theorem curve_trajectory_command c t0 (crv : Curve) t g v :
  let c' := set_xdes_curve c t0 crv in
  let '(pos, vel, acc) := curve_eval crv (seconds (tsub t t0)) in
  (operator_call c' t g v).1 =
    acc ⊕ kp_ c ⊙ rminus pos g ⊕ kd_ c ⊙ (vel ⊖ v)
        ⊕ ki_ c ⊙ i_err_ (operator_call c' t g v).2 ∧
  i_err_ (operator_call c' t g v).2 = i_err_ (integrate c t (rminus pos g)) ∧
  i_err_ c' = i_err_ c ∧ t_last c' = t_last c ∧ prm_ c' = prm_ c.
Proof.
  cbn zeta. rewrite operator_call_i_err, operator_call_output. cbn.
  destruct (curve_eval crv (seconds (tsub t t0))) as [[pos vel] acc]. cbn.
  repeat split. unfold integrate. cbn.
  destruct (t_last c) as [tl|]; [|done]. by destruct (tgt t tl).
Qed.
End sequence_facts.

(** * Timestamps, saturation and the proportional-derivative part *)

Section control_facts.
Context {R G T Curve : Type}.
Context `{ScalarLaws R} `{LieGroup R G} `{Chrono R T} `{SmoothCurve R G Curve}.
Context `{!LieGroupLaws R G} `{!ChronoLaws R T}.

Add Ring scalar_ring_control : (scalar_ring_theory (R := R)).

Implicit Types (c : PID R G T) (t : T) (g : G) (v : Tangent R).

Lemma integrate_skip c t e tl :
  t_last c = Some tl → tgt t tl = false → integrate c t e = c.
Proof. unfold integrate. by intros -> ->. Qed.

Lemma tgt_irrefl t : tgt t t = false.
Proof.
  destruct (tgt t t) eqn:Htt; [|done].
  by rewrite <- (tgt_asym t t Htt).
Qed.

(** X5.  Repeating an evaluation call with the same time, state and
    velocity returns the same command and leaves the controller as the
    first call left it: a duplicate timestamp accumulates nothing. *)
Theorem repeated_call_idempotent c t g v :
  let r1 := operator_call c t g v in
  let r2 := operator_call r1.2 t g v in
  r2.1 = r1.1 ∧ r2.2 = r1.2.
Proof.
  cbn zeta.
  destruct (operator_call_frame c t g v) as (Hp & Hkp & Hkd & Hki & Hx).
  assert (integrate (operator_call c t g v).2 t
            (rminus (x_des_ (operator_call c t g v).2 t).1.1 g)
          = (operator_call c t g v).2) as Hskip.
  { apply (integrate_skip _ t _ t); [by rewrite operator_call_state|].
    apply tgt_irrefl. }
  split.
  - rewrite (operator_call_output (operator_call c t g v).2), Hskip.
    rewrite Hkp, Hkd, Hki, Hx, operator_call_i_err.
    by rewrite operator_call_output.
  - rewrite (operator_call_state (operator_call c t g v).2), Hskip.
    by rewrite operator_call_state.
Qed.

(** X6.  After an out-of-order call the interval is measured from the
    out-of-order time: for calls at [t1], then at an earlier [t0], then at
    [t2] later than [t0], the third call adds [(t2 - t0) * g_err] to the
    integral state the first call left, with [t1] playing no part. *)
Theorem interval_after_out_of_order c t1 g1 v1 t0 g0 v0 t2 g2 v2 :
  tgt t1 t0 = true → tgt t2 t0 = true →
  let c1 := (operator_call c t1 g1 v1).2 in
  let c2 := (operator_call c1 t0 g0 v0).2 in
  let c3 := (operator_call c2 t2 g2 v2).2 in
  let g_err := rminus (x_des_ c t2).1.1 g2 in
  i_err_ c3 =
  clamp (i_err_ c1 ⊕ seconds (tsub t2 t0) ⊛ g_err) (windup_limit (prm_ c)).
Proof.
  intros H10 H20. cbn zeta.
  set (c1 := (operator_call c t1 g1 v1).2).
  set (c2 := (operator_call c1 t0 g0 v0).2).
  destruct (operator_call_frame c t1 g1 v1) as (Hp1 & _ & _ & _ & Hx1).
  destruct (operator_call_frame c1 t0 g0 v0) as (Hp2 & _ & _ & _ & Hx2).
  fold c1 in Hp1, Hx1. fold c2 in Hp2, Hx2.
  assert (t_last c2 = Some t0) as Ht2.
  { unfold c2. by rewrite operator_call_state. }
  assert (i_err_ c2 = i_err_ c1) as Hi2.
  { unfold c2. rewrite operator_call_i_err. apply integrate_skip_i_err.
    right. exists t1. split; [unfold c1; by rewrite operator_call_state|].
    by apply tgt_asym. }
  rewrite operator_call_i_err. unfold integrate.
  rewrite Ht2, H20. cbn. by rewrite Hi2, Hp2, Hp1, Hx2, Hx1.
Qed.

(** *** Saturation *)

Lemma clamp_cases (l x : R) :
  sle s0 l →
  smin (smax x (sopp l)) l =
  if sltb l x then l else if sltb x (sopp l) then sopp l else x.
Proof.
  intros Hl. pose proof (opp_limit_le l Hl) as Hle.
  unfold smin, smax. destruct (sltb x (sopp l)) eqn:Hlo; [|done].
  rewrite Hle. by rewrite (sltb_asym x l (sltb_le_trans x (sopp l) l Hlo Hle)).
Qed.

(** X7.  With a limit that is not negative, an accumulating evaluation call
    saturates coefficient by coefficient: a coefficient of
    [i_err + dt * g_err] above the limit becomes the limit, one below the
    negated limit becomes the negated limit, and any other is kept. *)
Theorem accumulate_saturates c t g v tl (k : nat) (x : R) :
  let limit := windup_limit (prm_ c) in
  let g_err := rminus (x_des_ c t).1.1 g in
  sle s0 limit → t_last c = Some tl → tgt t tl = true →
  (i_err_ c ⊕ seconds (tsub t tl) ⊛ g_err) !! k = Some x →
  i_err_ (operator_call c t g v).2 !! k =
  Some (if sltb limit x then limit
        else if sltb x (sopp limit) then sopp limit else x).
Proof.
  intros limit g_err Hl Htl Hgt Hx.
  rewrite operator_call_i_err. unfold integrate. rewrite Htl, Hgt. cbn.
  unfold clamp. rewrite clamp_coefficients, list_lookup_fmap.
  fold g_err. rewrite Hx. cbn. by rewrite clamp_cases.
Qed.
End control_facts.

(** * The default limit in binary64 *)

Module DoubleLimit.
Import Double.

Lemma ltb_neg_infinity (x : float) : PrimFloat.ltb x neg_infinity = false.
Proof.
  rewrite FloatAxioms.ltb_spec.
  change (Prim2SF neg_infinity) with (S754_infinity true).
  by destruct (Prim2SF x) as [[]|[]| |[] m e].
Qed.

Lemma ltb_infinity (x : float) : PrimFloat.ltb infinity x = false.
Proof.
  rewrite FloatAxioms.ltb_spec.
  change (Prim2SF infinity) with (S754_infinity false).
  by destruct (Prim2SF x) as [[]|[]| |[] m e].
Qed.

Lemma clamp_infinity (i : list float) : clamp i PrimFloat.infinity = i.
Proof.
  unfold clamp, cwiseMin, cwiseMax. rewrite <- list_fmap_compose.
  induction i as [|x i IH]; [done|].
  cbn [fmap list_fmap]. rewrite IH. f_equal.
  unfold compose, smin, smax. cbn [sltb sopp double_Scalar].
  change (PrimFloat.opp infinity) with neg_infinity.
  by rewrite ltb_neg_infinity, ltb_infinity.
Qed.

(** X10.  With the default parameters, whose limit is [+infinity], the
    clamp changes nothing for any [double] at all: an accumulating call
    leaves exactly [i_err + dt * g_err], not-a-number included. *)
Theorem default_limit_never_clamps (c : PID float float Z) t g v tl :
  prm_ c = PIDParams_default → t_last c = Some tl → tgt t tl = true →
  i_err_ (operator_call c t g v).2 =
  i_err_ c ⊕ seconds (tsub t tl) ⊛ rminus (x_des_ c t).1.1 g.
Proof.
  intros Hp Htl Hgt. rewrite operator_call_i_err. unfold integrate.
  rewrite Htl, Hgt. cbn [i_err_ with_i_err]. rewrite Hp.
  apply clamp_infinity.
Qed.

Lemma default_limit_never_clamps_witness :
  let c := (operator_call (pid PIDParams_default) 0%Z (-10)%float [0%float]).2 in
  i_err_ (operator_call c 2%Z (-10)%float [0%float]).2 = [20%float].
Proof.
  apply (default_limit_never_clamps
           (operator_call (pid PIDParams_default) 0%Z (-10)%float [0%float]).2
           2%Z (-10)%float [0%float] 0%Z); reflexivity.
Defined.
End DoubleLimit.

(** * More of the planar instance *)

Module PlaneMore.
Import Plane PlaneFacts.
Local Open Scope Z_scope.

Lemma repeated_call_idempotent_witness :
  let r1 := operator_call (operator_call (pid 5) 0 at_rest.1 at_rest.2).2
              1 at_rest.1 at_rest.2 in
  let r2 := operator_call r1.2 1 at_rest.1 at_rest.2 in
  r2.1 = r1.1 ∧ r2.2 = r1.2.
Proof. apply (repeated_call_idempotent (R := Z) (G := Z * Z) (T := Z)). Defined.

Lemma interval_after_out_of_order_witness :
  let c := set_xdes (pid 100) (λ t : Z, ((t, t), [1; 1], [0; 0])) in
  let c1 := (operator_call c 5 at_rest.1 at_rest.2).2 in
  let c2 := (operator_call c1 3 at_rest.1 at_rest.2).2 in
  let c3 := (operator_call c2 4 at_rest.1 at_rest.2).2 in
  i_err_ c3 = [14; 14].
Proof.
  cbn zeta. etrans.
  - apply (interval_after_out_of_order (R := Z)
             (set_xdes (pid 100) (λ t : Z, ((t, t), [1; 1], [0; 0])))
             5 at_rest.1 at_rest.2 3 at_rest.1 at_rest.2 4 at_rest.1 at_rest.2);
      reflexivity.
  - reflexivity.
Defined.

Lemma accumulate_saturates_witness :
  let c := (operator_call (pid 5) 0 at_rest.1 at_rest.2).2 in
  i_err_ (operator_call c 1 at_rest.1 at_rest.2).2 !! 0%nat = Some 5.
Proof.
  cbn zeta. etrans.
  - apply (accumulate_saturates (R := Z)
             (operator_call (pid 5) 0 at_rest.1 at_rest.2).2
             1 at_rest.1 at_rest.2 0 0%nat 10); reflexivity.
  - reflexivity.
Defined.

End PlaneMore.

(** * The limit and the accumulated sum, for any coefficient arithmetic *)

Section limit_facts.
Context {R G T Curve : Type}.
Context `{Scalar R} `{LieGroup R G} `{Chrono R T} `{SmoothCurve R G Curve}.

Implicit Types (c : PID R G T) (t : T) (g : G) (v : Tangent R).

Lemma clamp_within_usable (l x : R) :
  usable_limit l → within l (smin (smax x (sopp l)) l).
Proof.
  intros (Hll & Hnn & Hnl & _). unfold within, smin, smax, sle in *.
  destruct (sltb x (sopp l)) eqn:Hlo.
  - by rewrite Hnl.
  - by destruct (sltb l x) eqn:Hhi.
Qed.

Lemma limited_new (prm : PIDParams R) :
  usable_limit (windup_limit prm) → limited prm (PID_new (T := T) prm).
Proof.
  intros (_ & _ & _ & Hzero). split; [done|].
  cbn. unfold Zero, Constant. by apply Forall_replicate.
Qed.

Lemma limited_integrate prm c t e :
  usable_limit (windup_limit prm) → limited prm c → limited prm (integrate c t e).
Proof.
  intros Hl [Hp Hi]. unfold integrate.
  destruct (t_last c) as [tl|]; [|done].
  destruct (tgt t tl); [|done].
  split; [done|]. cbn. rewrite Hp. unfold clamp.
  rewrite clamp_coefficients. apply Forall_fmap, Forall_true.
  intros x. by apply clamp_within_usable.
Qed.

Lemma limited_configure prm c (k : config R G T Curve) :
  usable_limit (windup_limit prm) → limited prm c → limited prm (configure c k).
Proof.
  intros (_ & _ & _ & Hzero) [Hp Hi]. destruct k; try done.
  split; [done|]. cbn. unfold Zero, Constant. by apply Forall_replicate.
Qed.

Lemma limited_step prm c (cmd : command R G T Curve) :
  usable_limit (windup_limit prm) → limited prm c → limited prm (step c cmd).
Proof.
  intros Hl Hc. destruct cmd as [k|t g v]; [by apply limited_configure|].
  cbn. rewrite operator_call_state.
  by destruct (limited_integrate prm c t (rminus (x_des_ c t).1.1 g) Hl Hc).
Qed.

Lemma limited_run prm (cmds : list (command R G T Curve)) c :
  usable_limit (windup_limit prm) → limited prm c → limited prm (run c cmds).
Proof.
  intros Hl. revert c. induction cmds as [|cmd cmds IH]; intros c Hc; [done|].
  cbn. by apply IH, limited_step.
Qed.

(** After any call sequence since construction and one more evaluation
    call, every coefficient of the integral state lies within a usable
    limit. *)
Lemma within_after_call
    (prm : PIDParams R) (cmds : list (command R G T Curve)) t g v :
  usable_limit (windup_limit prm) →
  Forall (within (windup_limit prm))
    (i_err_ (operator_call (run (PID_new prm) cmds) t g v).2).
Proof.
  intros Hl.
  assert (limited prm (step (run (PID_new prm) cmds) (Evaluate t g v)))
    as [_ Hi]; [|done].
  by apply limited_step, limited_run, limited_new.
Qed.

(** *** Accumulation at a constant rate *)

Lemma calls_constant_error
    (prm : PIDParams R) (cfg : list (config R G T Curve))
    (ts : nat → T) (gs : nat → G) (vs : nat → Tangent R) (dt : R) e n :
  let c0 := foldl configure (PID_new prm) cfg in
  (∀ k, tgt (ts (S k)) (ts k) = true) →
  (∀ k, seconds (tsub (ts (S k)) (ts k)) = dt) →
  (∀ k, rminus (x_des_ c0 (ts k)).1.1 (gs k) = e) →
  (∀ k, 1 ≤ k ≤ n →
     Forall (within (windup_limit prm)) (repeated_sum k dt e Zero)) →
  let cn := calls c0 ts gs vs (S n) in
  prm_ cn = prm ∧ x_des_ cn = x_des_ c0 ∧ t_last cn = Some (ts n) ∧
  i_err_ cn = repeated_sum n dt e Zero.
Proof.
  intros c0 Hgt Hdt He Hin.
  destruct (configured_fresh prm cfg) as (Hp0 & Ht0 & Hi0). fold c0 in Hp0, Ht0, Hi0.
  induction n as [|n IH]; cbn zeta.
  - cbn [calls].
    destruct (operator_call_frame c0 (ts 0) (gs 0) (vs 0)) as (-> & _ & _ & _ & ->).
    rewrite operator_call_i_err, operator_call_state.
    repeat split; [done|].
    by rewrite integrate_skip_i_err by auto.
  - destruct IH as (IHp & IHx & IHt & IHi); [intros k Hk; apply Hin; lia|].
    change (calls c0 ts gs vs (S (S n))) with
      (operator_call (calls c0 ts gs vs (S n)) (ts (S n)) (gs (S n)) (vs (S n))).2.
    set (cn := calls c0 ts gs vs (S n)) in *.
    destruct (operator_call_frame cn (ts (S n)) (gs (S n)) (vs (S n)))
      as (-> & _ & _ & _ & ->).
    rewrite operator_call_i_err, operator_call_state.
    repeat split; [done..|].
    unfold integrate. rewrite IHt, Hgt, Hdt, IHx, He, IHi, IHp. cbn.
    apply clamp_within_id, (Hin (S n)). lia.
Qed.

(** C5 (amended).  On a fresh controller, evaluation calls at strictly
    increasing times a constant interval [dt] apart, each seeing the same
    position error [g_err]: the first call accumulates nothing and every
    later call adds [dt * g_err], so after [n + 1] calls the integral state
    is [dt * g_err] added [n] times to zero, one addition per call, as long
    as none of these partial sums leaves the windup limits (no clamping
    occurs).  In exact arithmetic that sum is [n * dt * g_err]; the
    additions of the source round. *)
Theorem integral_repeated_sum
    (prm : PIDParams R) (cfg : list (config R G T Curve))
    (ts : nat → T) (gs : nat → G) (vs : nat → Tangent R) (dt : R) g_err n :
  let c0 := foldl configure (PID_new prm) cfg in
  (∀ k, tgt (ts (S k)) (ts k) = true) →
  (∀ k, seconds (tsub (ts (S k)) (ts k)) = dt) →
  (∀ k, rminus (x_des_ c0 (ts k)).1.1 (gs k) = g_err) →
  (∀ k, 1 ≤ k ≤ n →
     Forall (within (windup_limit prm)) (repeated_sum k dt g_err Zero)) →
  i_err_ (calls c0 ts gs vs (S n)) = repeated_sum n dt g_err Zero.
Proof.
  intros c0 Hgt Hdt He Hin.
  pose proof (calls_constant_error prm cfg ts gs vs dt g_err n Hgt Hdt He Hin)
    as (_ & _ & _ & Hi).
  exact Hi.
Qed.
End limit_facts.

(** In exact arithmetic the repeated sum is the product. *)

Section repeated_sum_exact.
Context {R : Type} `{ScalarLaws R}.

Add Ring scalar_ring_sum : (scalar_ring_theory (R := R)).

Lemma repeated_sum_product (n : nat) (dt : R) (e : list R) :
  repeated_sum n dt e (replicate (length e) s0) = smul (of_nat n) dt ⊛ e.
Proof.
  induction n as [|n IH].
  - cbn. by rewrite scale_0_l.
  - change (repeated_sum (S n) dt e (replicate (length e) s0))
      with (repeated_sum n dt e (replicate (length e) s0) ⊕ dt ⊛ e).
    rewrite IH, vadd_scale. f_equal. cbn [of_nat]. ring.
Qed.
End repeated_sum_exact.

(** * Binary64 comparisons and zeros *)

Module Binary64.
Import Double.

Lemma compare_cont_swap (p q : positive) :
  Pos.compare_cont Eq q p = CompOpp (Pos.compare_cont Eq p q).
Proof. exact (eq_sym (Pos.compare_cont_antisym p q Eq)). Qed.

Lemma SFcompare_refl f : SFcompare f f = if SFis_nan f then None else Some Eq.
Proof.
  destruct f as [[]|[]| |[] m e]; cbn; try done;
    by rewrite Z.compare_refl, Pos.compare_cont_refl.
Qed.

Lemma SFcompare_antisym a b : SFcompare b a = CompOpp <$> SFcompare a b.
Proof.
  destruct a as [[]|[]| |[] ma ea], b as [[]|[]| |[] mb eb]; cbn; try done;
    rewrite (Z.compare_antisym ea eb);
    destruct (Z.compare ea eb) eqn:He; cbn; try done;
    rewrite (compare_cont_swap ma mb); cbn;
    by destruct (Pos.compare_cont Eq ma mb).
Qed.

Lemma SFopp_involutive a : SFopp (SFopp a) = a.
Proof. by destruct a as [[]|[]| |[] m e]. Qed.

Lemma SFcompare_opp a b : SFcompare (SFopp a) (SFopp b) = SFcompare b a.
Proof.
  destruct a as [[]|[]| |[] ma ea], b as [[]|[]| |[] mb eb]; cbn; try done;
    rewrite (Z.compare_antisym ea eb);
    destruct (Z.compare ea eb) eqn:He; cbn; try done;
    rewrite (compare_cont_swap ma mb); cbn;
    by destruct (Pos.compare_cont Eq ma mb).
Qed.

Lemma SFcompare_None a b :
  SFcompare a b = None → SFis_nan a = true ∨ SFis_nan b = true.
Proof.
  destruct a as [[]|[]| |[] ma ea], b as [[]|[]| |[] mb eb]; cbn; auto; done.
Qed.

Lemma SFltb_irrefl a : SFltb a a = false.
Proof. unfold SFltb. rewrite SFcompare_refl. by destruct (SFis_nan a). Qed.

Lemma SFltb_opp_swap a b : SFltb a (SFopp b) = SFltb b (SFopp a).
Proof.
  unfold SFltb.
  by rewrite <- (SFopp_involutive a) at 1; rewrite SFcompare_opp.
Qed.

(** [a <= b] follows from "not [b < a]" when neither is not-a-number. *)
Lemma SFleb_of_not_ltb a b :
  SFis_nan a = false → SFis_nan b = false → SFltb b a = false → SFleb a b = true.
Proof.
  unfold SFltb, SFleb. intros Ha Hb. rewrite (SFcompare_antisym a b).
  destruct (SFcompare a b) as [[]|] eqn:Hc; cbn; try done.
  destruct (SFcompare_None a b Hc); congruence.
Qed.

Lemma SFabs_cases a : SFabs a = a ∨ SFabs a = SFopp a.
Proof. destruct a as [[]|[]| |[] m e]; cbn; auto. Qed.

Lemma SFis_nan_abs a : SFis_nan (SFabs a) = SFis_nan a.
Proof. by destruct a as [[]|[]| |[] m e]. Qed.

(** *** The primitive operations *)

Lemma is_nan_spec x : PrimFloat.is_nan x = SFis_nan (Prim2SF x).
Proof.
  unfold PrimFloat.is_nan. rewrite FloatAxioms.eqb_spec. unfold SFeqb.
  rewrite SFcompare_refl. by destruct (SFis_nan (Prim2SF x)).
Qed.

Lemma is_finite_spec x : PrimFloat.is_finite x = SFis_finite (Prim2SF x).
Proof.
  unfold PrimFloat.is_finite, PrimFloat.is_infinity.
  rewrite is_nan_spec, FloatAxioms.eqb_spec, FloatAxioms.abs_spec.
  change (Prim2SF infinity) with (S754_infinity false).
  by destruct (Prim2SF x) as [[]|[]| |[] m e].
Qed.

Lemma ltb_irrefl x : PrimFloat.ltb x x = false.
Proof. rewrite FloatAxioms.ltb_spec. apply SFltb_irrefl. Qed.

Lemma ltb_opp_swap x y :
  PrimFloat.ltb x (PrimFloat.opp y) = PrimFloat.ltb y (PrimFloat.opp x).
Proof. rewrite !FloatAxioms.ltb_spec, !FloatAxioms.opp_spec. apply SFltb_opp_swap. Qed.

(** A limit that is not negative is not not-a-number, is not below zero and
    is not below its own negation. *)
Lemma nonneg_limit l :
  PrimFloat.leb 0 l = true →
  PrimFloat.is_nan l = false ∧ PrimFloat.ltb l 0 = false ∧
  PrimFloat.ltb 0 (PrimFloat.opp l) = false ∧
  PrimFloat.ltb l (PrimFloat.opp l) = false.
Proof.
  rewrite is_nan_spec, FloatAxioms.leb_spec, !FloatAxioms.ltb_spec, FloatAxioms.opp_spec.
  change (Prim2SF 0) with (S754_zero false).
  by destruct (Prim2SF l) as [[]|[]| |[] m e].
Qed.

Lemma usable_nonneg_limit l :
  PrimFloat.leb 0 l = true → usable_limit (H := double_Scalar) l.
Proof.
  intros Hl. destruct (nonneg_limit l Hl) as (_ & H0 & Hn0 & Hnl).
  unfold usable_limit, within, sle. cbn [sltb sopp s0 double_Scalar].
  by rewrite !ltb_irrefl.
Qed.

(** Within a limit that is not negative, a coefficient is not-a-number or
    its magnitude is at most the limit. *)
Lemma within_bounded l x :
  PrimFloat.leb 0 l = true → within (H := double_Scalar) l x →
  PrimFloat.is_nan x = true ∨ PrimFloat.leb (PrimFloat.abs x) l = true.
Proof.
  intros Hl [Hlo Hhi]. destruct (nonneg_limit l Hl) as (Hnan & _).
  unfold sle in *. cbn [sltb sopp double_Scalar] in *.
  rewrite ltb_opp_swap in Hlo.
  rewrite is_nan_spec in *. rewrite FloatAxioms.leb_spec, FloatAxioms.abs_spec.
  rewrite FloatAxioms.ltb_spec in Hhi. rewrite FloatAxioms.ltb_spec, FloatAxioms.opp_spec in Hlo.
  destruct (SFis_nan (Prim2SF x)) eqn:Hx; [by left | right].
  apply SFleb_of_not_ltb; [by rewrite SFis_nan_abs | done |].
  by destruct (SFabs_cases (Prim2SF x)) as [-> | ->].
Qed.

(** *** A negative limit *)

Lemma neg_limit l :
  PrimFloat.ltb l 0 = true → PrimFloat.ltb l (PrimFloat.opp l) = true.
Proof.
  rewrite !FloatAxioms.ltb_spec, FloatAxioms.opp_spec.
  change (Prim2SF 0) with (S754_zero false).
  by destruct (Prim2SF l) as [[]|[]| |[] m e].
Qed.

Lemma ltb_not_nan x y : PrimFloat.ltb x y = true → PrimFloat.is_nan x = false.
Proof.
  rewrite FloatAxioms.ltb_spec, is_nan_spec.
  by destruct (Prim2SF x) as [[]|[]| |[] m e].
Qed.

Lemma ltb_nan_r x y : PrimFloat.is_nan y = true → PrimFloat.ltb x y = false.
Proof.
  rewrite FloatAxioms.ltb_spec, is_nan_spec.
  by destruct (Prim2SF x) as [[]|[]| |[] mx ex], (Prim2SF y) as [[]|[]| |[] my ey].
Qed.

Lemma above_neg_limit l x :
  PrimFloat.ltb l 0 = true → PrimFloat.is_nan x = false →
  PrimFloat.ltb x (PrimFloat.opp l) = false → PrimFloat.ltb l x = true.
Proof.
  rewrite !FloatAxioms.ltb_spec, FloatAxioms.opp_spec, is_nan_spec.
  change (Prim2SF 0) with (S754_zero false).
  by destruct (Prim2SF l) as [[]|[]| |[] ml el], (Prim2SF x) as [[]|[]| |[] mx ex].
Qed.

(** The clamp of one coefficient under a negative limit. *)
Lemma clamp_neg_limit_double l x :
  PrimFloat.ltb l 0 = true →
  smin (H := double_Scalar) (smax x (sopp l)) l =
  if PrimFloat.is_nan x then x else l.
Proof.
  intros Hl. unfold smin, smax. cbn [sltb sopp double_Scalar].
  destruct (PrimFloat.ltb x (PrimFloat.opp l)) eqn:Hlo.
  - by rewrite (neg_limit l Hl), (ltb_not_nan _ _ Hlo).
  - destruct (PrimFloat.is_nan x) eqn:Hx.
    + by rewrite ltb_nan_r.
    + by rewrite above_neg_limit.
Qed.

(** *** Products with zero and sums with zeros *)

Lemma mul_zero_l x :
  PrimFloat.is_finite x = true → SFis_zero (Prim2SF (0 * x)) = true.
Proof.
  rewrite is_finite_spec, FloatAxioms.mul_spec. change (Prim2SF 0) with (S754_zero false).
  by destruct (Prim2SF x) as [[]|[]| |[] m e].
Qed.

Lemma SFadd_zero_r f z :
  SFis_zero z = true →
  SF64add f z = f ∨ (SFis_zero f = true ∧ SFis_zero (SF64add f z) = true).
Proof.
  destruct z as [[]|[]| |[] mz ez]; try done; intros _;
    destruct f as [[]|[]| |[] m e]; cbn; auto.
Qed.

Lemma SFeqb_zeros f f' : SFis_zero f = true → SFis_zero f' = true → SFeqb f f' = true.
Proof. by destruct f as [[]|[]| |[] m e], f' as [[]|[]| |[] m' e']. Qed.

Lemma SFeqb_zero_l f f' : SFeqb f f' = true → SFis_zero f = true → SFis_zero f' = true.
Proof. by destruct f as [[]|[]| |[] m e], f' as [[]|[]| |[] m' e']. Qed.

(** Adding a zero keeps a double in agreement with what it agreed with. *)
Lemma agree_add_zero o a z :
  agree o a → SFis_zero (Prim2SF z) = true → agree (o + z) a.
Proof.
  intros Hoa Hz. unfold agree in *.
  destruct (SFadd_zero_r (Prim2SF o) (Prim2SF z) Hz) as [Hsame | [Ho Hsum]].
  - rewrite <- FloatAxioms.add_spec in Hsame. apply Prim2SF_inj in Hsame. by rewrite Hsame.
  - rewrite <- FloatAxioms.add_spec in Hsum. right.
    rewrite FloatAxioms.eqb_spec. apply SFeqb_zeros; [done|].
    destruct Hoa as [<- | Heq]; [done|].
    rewrite FloatAxioms.eqb_spec in Heq. by apply (SFeqb_zero_l (Prim2SF o)).
Qed.

Lemma agree_refl a : agree a a.
Proof. by left. Qed.

Lemma mul_finite_zero x z :
  PrimFloat.is_finite x = true → SFis_zero (Prim2SF z) = true →
  SFis_zero (Prim2SF (x * z)) = true.
Proof.
  rewrite is_finite_spec, FloatAxioms.mul_spec.
  by destruct (Prim2SF x) as [[]|[]| |[] m e], (Prim2SF z) as [[]|[]| |[] mz ez].
Qed.

(** A finite double minus itself is [+0]. *)
Lemma sub_diag x : PrimFloat.is_finite x = true → (x - x)%float = 0%float.
Proof.
  rewrite is_finite_spec. intros Hx. apply Prim2SF_inj. rewrite FloatAxioms.sub_spec.
  change (Prim2SF 0) with (S754_zero false).
  destruct (Prim2SF x) as [[]|[]| |s m e]; try done.
  unfold SF64sub, SFsub. by rewrite Z.sub_diag.
Qed.

(** [+0] plus a zero of either sign is [+0]. *)
Lemma zero_add_zero z : SFis_zero (Prim2SF z) = true → (0 + z)%float = 0%float.
Proof.
  intros Hz. apply Prim2SF_inj. rewrite FloatAxioms.add_spec.
  change (Prim2SF 0) with (S754_zero false).
  by destruct (Prim2SF z) as [[]|[]| |[] m e].
Qed.

(** Zero passes the clamp of a limit that is not negative. *)
Lemma clamp_zero l :
  PrimFloat.leb 0 l = true →
  smin (H := double_Scalar) (smax 0%float (sopp l)) l = 0%float.
Proof.
  intros Hl. destruct (nonneg_limit l Hl) as (_ & H0 & Hn0 & _).
  unfold smin, smax. cbn [sltb sopp double_Scalar]. by rewrite Hn0, H0.
Qed.
End Binary64.

(** * The controller on binary64 coefficients

    The coefficient type is the [double] of the source; the Lie group and
    the time type stay arbitrary. *)

Section binary64_pid.
Context {G T Curve : Type}.
Context `{LieGroup float G} `{Chrono float T} `{SmoothCurve float G Curve}.
Context `{!LieGroupLaws float G}.

#[local] Existing Instance Double.double_Scalar.

Implicit Types (c : PID float G T) (t : T) (g : G) (v : Tangent float).
Implicit Types (a o z : list float).

Lemma zero_products n (x : list float) :
  length x = n → Forall (λ y, PrimFloat.is_finite y = true) x →
  Forall (λ y, Double.SFis_zero (Prim2SF y) = true) (replicate n 0%float ⊙ x) ∧
  length (replicate n 0%float ⊙ x) = n.
Proof.
  intros <- Hx. split.
  - induction Hx as [|y x Hy _ IH]; [done|].
    cbn. constructor; [by apply Binary64.mul_zero_l | done].
  - unfold cwiseProduct. rewrite length_zip_with, length_replicate. lia.
Qed.

Lemma Forall2_agree_refl a : Forall2 Double.agree a a.
Proof. apply Forall_Forall2_diag, Forall_true. intros y. apply Binary64.agree_refl. Qed.

Lemma Forall2_agree_vadd o a z :
  Forall2 Double.agree o a →
  Forall (λ y, Double.SFis_zero (Prim2SF y) = true) z → length z = length a →
  Forall2 Double.agree (o ⊕ z) a.
Proof.
  intros Hoa. revert z. induction Hoa as [|y b o a Hy _ IH]; intros [|w z] Hz Hlen;
    try done.
  inversion Hz; subst. cbn. constructor.
  - by apply Binary64.agree_add_zero.
  - apply IH; [done|]. by injection Hlen.
Qed.

(** C3 (amended).  When the windup limit is not negative ([0 <= limit], so
    it is not not-a-number either): after any sequence of calls on a
    controller since its construction (evaluations, gain and trajectory
    configuration, integral resets, in any order) and one more evaluation
    call, every coefficient of the integral state is not-a-number or has a
    magnitude of at most the windup limit. *)
Theorem integral_magnitude_bounded
    (prm : PIDParams float) (cmds : list (command float G T Curve)) t g v :
  PrimFloat.leb 0 (windup_limit prm) = true →
  let c := run (PID_new prm) cmds in
  Forall (λ x, PrimFloat.is_nan x = true ∨
               PrimFloat.leb (PrimFloat.abs x) (windup_limit prm) = true)
    (i_err_ (operator_call c t g v).2).
Proof.
  intros Hl c.
  pose proof (within_after_call prm cmds t g v
                (Binary64.usable_nonneg_limit _ Hl)) as Hw.
  revert Hw. apply Forall_impl. intros x. by apply Binary64.within_bounded.
Qed.

(** C10 (amended).  With a negative windup limit, an evaluation call that
    accumulates (a previous timestamp exists and [t] is strictly later)
    leaves every coefficient of the integral state equal to the windup limit
    itself, except where the accumulated sum [i_err + dt * g_err] is
    not-a-number: that coefficient stays not-a-number. *)
Theorem negative_limit_saturates c t g v tl :
  let limit := windup_limit (prm_ c) in
  PrimFloat.ltb limit 0 = true →
  t_last c = Some tl → tgt t tl = true →
  i_err_ (operator_call c t g v).2 =
  (λ x, if PrimFloat.is_nan x then x else limit)
    <$> (i_err_ c ⊕ seconds (tsub t tl) ⊛ rminus (x_des_ c t).1.1 g).
Proof.
  intros limit Hneg Htl Hgt. rewrite operator_call_i_err. unfold integrate.
  rewrite Htl, Hgt. cbn [i_err_ with_i_err]. unfold clamp.
  rewrite clamp_coefficients. apply list_fmap_ext. intros _ x _.
  by apply Binary64.clamp_neg_limit_double.
Qed.

(** C9 (amended).  With the three gains all zero, and every coefficient of
    the position error, of the velocity error and of the integral state
    after the call finite, the command agrees with the desired
    acceleration that the trajectory reports at [t], coefficient by
    coefficient: it is the same double or compares equal to it (a zero of
    the other sign), whatever the state and the velocity are. *)
Theorem feedforward_only c t g v :
  wf_pid c → wf_tangent v →
  kp_ c = Zero → kd_ c = Zero → ki_ c = Zero →
  Forall (λ y, PrimFloat.is_finite y = true) (rminus (x_des_ c t).1.1 g) →
  Forall (λ y, PrimFloat.is_finite y = true) ((x_des_ c t).1.2 ⊖ v) →
  Forall (λ y, PrimFloat.is_finite y = true) (i_err_ (operator_call c t g v).2) →
  Forall2 Double.agree (operator_call c t g v).1 (x_des_ c t).2.
Proof.
  intros (_ & _ & _ & He & Hx) Hv Hp Hd Hi Hfe Hfv Hfi.
  destruct (Hx t) as [Hvd Had]. unfold wf_tangent in *.
  rewrite operator_call_i_err in Hfi.
  rewrite operator_call_output, Hp, Hd, Hi. unfold Zero, Constant. cbn [s0 Double.double_Scalar].
  destruct (zero_products Dof (rminus (x_des_ c t).1.1 g)) as [Hz1 Hn1];
    [apply rminus_dof | done |].
  destruct (zero_products Dof ((x_des_ c t).1.2 ⊖ v)) as [Hz2 Hn2];
    [unfold vsub; rewrite length_zip_with; lia | done |].
  destruct (zero_products Dof
              (i_err_ (integrate c t (rminus (x_des_ c t).1.1 g)))) as [Hz3 Hn3];
    [apply wf_integrate; [apply rminus_dof | done] | done |].
  repeat apply Forall2_agree_vadd; try done; try congruence.
  apply Forall2_agree_refl.
Qed.
(** X8.  With the integral gains all zero and a finite integral state after
    the call, the integral state plays no part in the command: the command
    agrees, coefficient by coefficient (the same double, or equal under
    [==]), with [a_des + kp ⊙ g_err + kd ⊙ (v_des - v)]. *)
Theorem zero_ki_command c t g v :
  wf_pid c → wf_tangent v → ki_ c = Zero →
  Forall (λ y, PrimFloat.is_finite y = true) (i_err_ (operator_call c t g v).2) →
  Forall2 Double.agree (operator_call c t g v).1
    ((x_des_ c t).2 ⊕ kp_ c ⊙ rminus (x_des_ c t).1.1 g
                    ⊕ kd_ c ⊙ ((x_des_ c t).1.2 ⊖ v)).
Proof.
  intros (Hkp & Hkd & _ & He & Hx) Hv Hki Hfi.
  destruct (Hx t) as [Hvd Had]. unfold wf_tangent in *.
  rewrite operator_call_i_err in Hfi.
  rewrite operator_call_output, Hki. unfold Zero, Constant. cbn [s0 Double.double_Scalar].
  destruct (zero_products Dof
              (i_err_ (integrate c t (rminus (x_des_ c t).1.1 g)))) as [Hz Hn];
    [apply wf_integrate; [apply rminus_dof | done] | done |].
  apply Forall2_agree_vadd; [apply Forall2_agree_refl | done |].
  rewrite Hn. unfold vadd, vsub, cwiseProduct.
  rewrite !length_zip_with, rminus_dof. lia.
Qed.

Lemma finite_times_zeros n (k : list float) :
  length k = n → Forall (λ y, PrimFloat.is_finite y = true) k →
  Forall (λ y, Double.SFis_zero (Prim2SF y) = true) (k ⊙ replicate n 0%float) ∧
  length (k ⊙ replicate n 0%float) = n.
Proof.
  intros <- Hk. split.
  - induction Hk as [|y k Hy _ IH]; [done|].
    cbn. constructor; [by apply Binary64.mul_finite_zero | done].
  - unfold cwiseProduct. rewrite length_zip_with, length_replicate. lia.
Qed.

Lemma vsub_diag_finite (x : list float) :
  Forall (λ y, PrimFloat.is_finite y = true) x →
  x ⊖ x = replicate (length x) 0%float.
Proof.
  induction 1 as [|y x Hy _ IH]; [done|].
  unfold vsub in *. cbn [zip_with length replicate]. rewrite IH. f_equal.
  by apply Binary64.sub_diag.
Qed.

Lemma rest_sum n (d : float) :
  PrimFloat.is_finite d = true →
  replicate n 0%float ⊕ d ⊛ replicate n 0%float = replicate n 0%float.
Proof.
  intros Hd. induction n as [|n IH]; [done|].
  unfold vadd, scale in *. cbn [replicate fmap list_fmap zip_with].
  rewrite IH. f_equal.
  apply Binary64.zero_add_zero. by apply Binary64.mul_finite_zero.
Qed.

Lemma rest_clamp n (l : float) :
  PrimFloat.leb 0 l = true →
  clamp (replicate n 0%float) l = replicate n 0%float.
Proof.
  intros Hl. unfold clamp. rewrite clamp_coefficients.
  induction n as [|n IH]; [done|].
  cbn [replicate fmap list_fmap]. rewrite IH. f_equal.
  by apply Binary64.clamp_zero.
Qed.

(** X11.  On the trajectory the controller is at rest: with a limit that is
    not negative, a zero integral state, finite gains, a finite desired
    velocity and a finite elapsed time, a call whose state has zero position
    error and whose velocity is the desired one returns a command that
    agrees with the desired acceleration (the same double, or equal under
    [==]) and leaves the integral state zero. *)
Theorem on_trajectory_rest c t g :
  wf_pid c → PrimFloat.leb 0 (windup_limit (prm_ c)) = true →
  i_err_ c = Zero → rminus (x_des_ c t).1.1 g = Zero →
  Forall (λ y, PrimFloat.is_finite y = true) (kp_ c) →
  Forall (λ y, PrimFloat.is_finite y = true) (kd_ c) →
  Forall (λ y, PrimFloat.is_finite y = true) (ki_ c) →
  Forall (λ y, PrimFloat.is_finite y = true) (x_des_ c t).1.2 →
  (∀ tl, t_last c = Some tl → PrimFloat.is_finite (seconds (tsub t tl)) = true) →
  Forall2 Double.agree (operator_call c t g (x_des_ c t).1.2).1 (x_des_ c t).2 ∧
  i_err_ (operator_call c t g (x_des_ c t).1.2).2 = Zero.
Proof.
  intros (Hkp & Hkd & Hki & _ & Hx) Hl Hi He Hfp Hfd Hfi Hfv Hdt.
  destruct (Hx t) as [Hvd Had]. unfold wf_tangent in *.
  assert (i_err_ (integrate c t Zero) = Zero) as Hrest.
  { unfold integrate. destruct (t_last c) as [tl|] eqn:Htl; [|done].
    destruct (tgt t tl); [|done]. cbn [i_err_ with_i_err]. rewrite Hi.
    unfold Zero, Constant. cbn [s0 Double.double_Scalar].
    rewrite rest_sum by (by apply Hdt). by apply rest_clamp. }
  rewrite operator_call_i_err, operator_call_output, He, Hrest.
  split; [|done].
  rewrite vsub_diag_finite, Hvd by done.
  unfold Zero, Constant. cbn [s0 Double.double_Scalar].
  destruct (finite_times_zeros Dof (kp_ c) Hkp Hfp) as [Hz1 Hn1].
  destruct (finite_times_zeros Dof (kd_ c) Hkd Hfd) as [Hz2 Hn2].
  destruct (finite_times_zeros Dof (ki_ c) Hki Hfi) as [Hz3 Hn3].
  repeat apply Forall2_agree_vadd; try done; try congruence.
  apply Forall2_agree_refl.
Qed.
End binary64_pid.

(** * More of the binary64 instance *)

Module DoubleClaims.
Import Double.
Local Open Scope float_scope.

#[export] Instance line_LieGroupLaws : LieGroupLaws float float.
Proof. split. done. Qed.

Lemma whole_seconds_later (k : nat) : tgt (Z.of_nat (S k)) (Z.of_nat k) = true.
Proof. apply Z.gtb_lt. lia. Qed.

Lemma whole_seconds_elapsed (k : nat) :
  seconds (tsub (Z.of_nat (S k)) (Z.of_nat k)) = 1.
Proof.
  unfold seconds, tsub, seconds_Chrono.
  by replace (Z.of_nat (S k) - Z.of_nat k)%Z with 1%Z by lia.
Qed.

Lemma Forall_within_infinity (i : list float) : Forall (within infinity) i.
Proof.
  apply Forall_true. intros x. split; unfold sle; cbn [sltb sopp double_Scalar].
  - change (PrimFloat.opp infinity) with neg_infinity.
    apply DoubleLimit.ltb_neg_infinity.
  - apply DoubleLimit.ltb_infinity.
Qed.

Lemma nan_not_neg_infinity : nan ≠ neg_infinity.
Proof. intros E. apply (f_equal PrimFloat.is_nan) in E. done. Qed.

Lemma nan_not_zero : nan ≠ 0.
Proof. intros E. apply (f_equal PrimFloat.is_nan) in E. done. Qed.

Lemma integral_magnitude_bounded_witness :
  Forall (λ x, PrimFloat.is_nan x = true ∨ PrimFloat.leb (PrimFloat.abs x) 5 = true)
    (i_err_ (operator_call
               (run (PID_new {| windup_limit := 5 |})
                    [Configure (Curve := float * float) (SetKiAll 2);
                     Evaluate 0%Z (-10) [0];
                     Evaluate 1%Z (-10) [0]])
               2%Z (-10) [0]).2).
Proof.
  apply (integral_magnitude_bounded (G := float) (T := Z) {| windup_limit := 5 |}).
  reflexivity.
Defined.

(** The rounding of the source: seven calls one second apart with position
    error [0.1] leave six rounded additions, not six times [0.1]. *)
Example repeated_sum_rounds :
  i_err_ (calls (pid PIDParams_default) (λ k, Z.of_nat k) (λ _, - tenth)
                (λ _, [0]) 7) = [0x1.3333333333333p-1] ∧
  smul (of_nat 6) 1 ⊛ [tenth] = [0x1.3333333333334p-1].
Proof. vm_compute. done. Qed.

Lemma integral_repeated_sum_witness :
  i_err_ (calls (foldl (configure (Curve := float * float))
                   (PID_new PIDParams_default) [])
                (λ k, Z.of_nat k) (λ _, - tenth) (λ _, [0]) 7)
  = [0x1.3333333333333p-1].
Proof.
  etrans.
  - apply (integral_repeated_sum (R := float) PIDParams_default []
             (λ k, Z.of_nat k) (λ _, - tenth) (λ _, [0]) 1 [tenth] 6).
    + apply whole_seconds_later.
    + apply whole_seconds_elapsed.
    + intros k. reflexivity.
    + intros k _. apply Forall_within_infinity.
  - reflexivity.
Defined.

(** Counterexample to C10 as stated: limit [-infinity] and finite inputs.
    The second call saturates at the limit; at the third the sum
    [-infinity + infinity] is not-a-number and stays so. *)
Lemma negative_limit_not_a_number :
  let c := pid {| windup_limit := neg_infinity |} in
  let r0 := operator_call c 0%Z (- huge) [0] in
  let r1 := operator_call r0.2 10%Z (- huge) [0] in
  let r2 := operator_call r1.2 20%Z (- huge) [0] in
  PrimFloat.ltb (windup_limit (prm_ r1.2)) 0 = true ∧
  t_last r1.2 = Some 10%Z ∧ tgt 20%Z 10%Z = true ∧
  i_err_ r1.2 = [neg_infinity] ∧ i_err_ r2.2 = [nan] ∧
  ¬ Forall (λ x, x = neg_infinity) (i_err_ r2.2).
Proof.
  cbn zeta. repeat split.
  intros Hall. vm_compute in Hall. inversion Hall as [|? ? Hx _]; subst.
  by apply nan_not_neg_infinity.
Qed.

Lemma negative_limit_saturates_witness :
  let c := (operator_call (pid {| windup_limit := -1 |}) 0%Z (-10) [0]).2 in
  i_err_ (operator_call c 1%Z (-10) [0]).2 = [-1].
Proof.
  cbn zeta. etrans.
  - apply (negative_limit_saturates (G := float) (T := Z)
             (operator_call (pid {| windup_limit := -1 |}) 0%Z (-10) [0]).2
             1%Z (-10) [0] 0%Z); reflexivity.
  - reflexivity.
Defined.

(** Counterexample to C9 as stated: all gains zero, default limit, finite
    inputs.  The second call accumulates [10 * 1e308 = infinity] and the
    product [0 * infinity] makes the command not-a-number, not [a_des]. *)
Lemma feedforward_not_a_number :
  let c := set_ki_all (set_kd_all (set_kp_all (pid PIDParams_default) 0) 0) 0 in
  let r0 := operator_call c 0%Z (- huge) [0] in
  let r1 := operator_call r0.2 10%Z (- huge) [0] in
  kp_ r0.2 = [0] ∧ kd_ r0.2 = [0] ∧ ki_ r0.2 = [0] ∧
  (x_des_ r0.2 10%Z).2 = [0] ∧ i_err_ r1.2 = [infinity] ∧ r1.1 = [nan] ∧
  r1.1 ≠ (x_des_ r0.2 10%Z).2.
Proof.
  cbn zeta. repeat split.
  intros E. vm_compute in E. apply nan_not_zero.
  exact (f_equal (λ l, match l with y :: _ => y | [] => 0 end) E).
Qed.

Lemma feedforward_only_witness :
  let f := λ t : Z, (1, [2], [7]) in
  let c0 := set_xdes (set_ki_all (set_kd_all (set_kp_all
              (pid {| windup_limit := 5 |}) 0) 0) 0) f in
  let c := (operator_call c0 4%Z 3 [4]).2 in
  Forall2 agree (operator_call c 5%Z 3 [4]).1 [7].
Proof.
  cbn zeta.
  refine (feedforward_only (G := float) (T := Z)
            (operator_call
               (set_xdes (set_ki_all (set_kd_all (set_kp_all
                  (pid {| windup_limit := 5 |}) 0) 0) 0) (λ t : Z, (1, [2], [7])))
               4%Z 3 [4]).2
            5%Z 3 [4] _ _ _ _ _ _ _ _); try reflexivity;
    repeat first [split | constructor].
Defined.

Lemma zero_ki_command_witness :
  let c := (operator_call (set_kp_all (pid {| windup_limit := 5 |}) 3)
              0%Z (-10) [0]).2 in
  Forall2 agree (operator_call c 1%Z (-10) [1]).1 [29].
Proof.
  cbn zeta.
  refine (zero_ki_command (G := float) (T := Z)
            (operator_call (set_kp_all (pid {| windup_limit := 5 |}) 3)
               0%Z (-10) [0]).2
            1%Z (-10) [1] _ _ _ _); try reflexivity;
    repeat first [split | constructor].
Defined.

Lemma on_trajectory_rest_witness :
  let f := λ t : Z, (2, [3], [7]) in
  let c0 := set_ki_all (set_xdes (pid {| windup_limit := 5 |}) f) 4 in
  let c := (operator_call c0 0%Z 2 [3]).2 in
  Forall2 agree (operator_call c 3%Z 2 [3]).1 [7] ∧
  i_err_ (operator_call c 3%Z 2 [3]).2 = [0].
Proof.
  cbn zeta.
  refine (on_trajectory_rest (G := float) (T := Z)
            (operator_call
               (set_ki_all (set_xdes (pid {| windup_limit := 5 |})
                  (λ t : Z, (2, [3], [7]))) 4)
               0%Z 2 [3]).2
            3%Z 2 _ _ _ _ _ _ _ _ _); try reflexivity;
    try (repeat first [split | constructor]).
  intros tl [= <-]. reflexivity.
Defined.
End DoubleClaims.
